(** * Referral ledger of [bot.py]

    A shallow embedding of the Flask handlers of [src/bot.py] and the
    properties of the referral ledger they maintain.

    Strings are Rocq [string]s (ASCII, one [ascii] per character), which is
    what wallet addresses, tokens and keys are.  The JSON file
    [referrals.json] is modelled as an optional ledger ([None]: the file does
    not exist yet); every handler reads it with [load_data] and, where the
    source does, writes it back with [save_data].  The rate-limit decorator
    of [use_referral] and the backup thread belong to the transport and
    scheduling layers and are not part of the embedding. *)

From Stdlib Require Import String Ascii List Bool Arith Lia.
Import ListNotations.
Local Open Scope string_scope.
Local Open Scope list_scope.

(** ** Configuration *)

Definition SECRET_KEY : string := "SUA_CHAVE_SECRETA_PARA_MARCAR_COMO_PAGO".

(** The literal compared with [faucet_token] in [use_referral]. *)
Definition FAUCET_TOKEN : string := "VALID_FAUCET_USAGE".

(** The literal bound of [total_referrals >= 200]. *)
Definition REFERRAL_CAP : nat := 200.

(** ** Strings *)

(** [str.lower()] on ASCII: the letters [A]..[Z] move to [a]..[z]. *)
Definition lower_ascii (c : ascii) : ascii :=
  let n := nat_of_ascii c in
  if ((65 <=? n) && (n <=? 90))%nat then ascii_of_nat (n + 32) else c.

Fixpoint lower (s : string) : string :=
  match s with
  | EmptyString => EmptyString
  | String c s' => String (lower_ascii c) (lower s')
  end.

(** [addr.startswith("0x") and len(addr) == 42] *)
Definition is_valid_address (addr : string) : bool :=
  String.prefix "0x" addr && (String.length addr =? 42)%nat.

(** ** Data model *)

(** One element of [db["referrals"]] or [db["paid_referrals"]]. *)
Record Referral : Type := mkReferral {
  referrer : string;
  referee : string;
  paid : bool
}.

(** The JSON document: [{"referrals": [...], "paid_referrals": [...]}]. *)
Record DB : Type := mkDB {
  referrals : list Referral;
  paid_referrals : list Referral
}.

Definition empty_db : DB := mkDB [] [].

(** The content of [DATA_FILE], [None] while the file does not exist. *)
Definition Store : Type := option DB.

(** [load_data]: creates the file with two empty lists when it is missing,
    then returns what the file holds. *)
Definition load_data (fs : Store) : DB * Store :=
  match fs with
  | None => (empty_db, Some empty_db)
  | Some db => (db, Some db)
  end.

(** [save_data]: overwrites the file. *)
Definition save_data (db : DB) (fs : Store) : Store := Some db.

(** The ledger a handler sees in a given file state. *)
Definition ledger (fs : Store) : DB := fst (load_data fs).

(** ** Responses *)

Record PayoutEntry : Type := mkEntry {
  wallet : string;
  amount : nat
}.

Inductive Body : Type :=
| Message (m : string)
| Error (e : string)
| StatusBody (total_referrals paid_count unpaid_count : nat)
             (matching : list Referral)
| PayoutBody (total_people total_ommv_to_send : nat)
             (multisend_list : list PayoutEntry).

(** [jsonify(body), code] *)
Definition Response : Type := (Body * nat)%type.

(** The failures of the handlers, under the names of the error taxonomy. *)
Definition InvalidAddress : Response := (Error "Endereço inválido", 400).
Definition Unauthorized : Response := (Error "Token inválido", 401).
Definition DuplicateReferee : Response :=
  (Error "Já foi indicado por outra carteira.", 400).
Definition CapExceeded : Response :=
  (Error "Limite de indicações atingido", 400).
Definition NotAuthorized : Response := (Error "Não autorizado", 401).

Definition is_ok (r : Response) : bool := (snd r =? 200)%nat.

(** ** Handlers

    Every handler takes the request's fields and the file state, and returns
    the response together with the file state it leaves. *)

Definition set_paid (ref : Referral) : Referral :=
  mkReferral (referrer ref) (referee ref) true.

Definition set_referrals (l : list Referral) (db : DB) : DB :=
  mkDB l (paid_referrals db).

Definition set_paid_referrals (l : list Referral) (db : DB) : DB :=
  mkDB (referrals db) l.

(** [sum(1 for item in l if item["referrer"] == address)] *)
Definition total_for (address : string) (l : list Referral) : nat :=
  List.length (filter (fun item => referrer item =? address) l).

(** [POST /api/register-referral] *)
Definition register_referral (address_field : string) (fs : Store)
  : Response * Store :=
  let address := lower address_field in
  if negb (is_valid_address address) then (InvalidAddress, fs)
  else
    let '(db, fs1) := load_data fs in
    let existing :=
      find (fun item => referrer item =? address) (referrals db) in
    let ok := (Message "Link registrado localmente", 200) in
    match existing with
    | None =>
        let db' :=
          set_referrals (referrals db ++ [mkReferral address "" false]) db in
        (ok, save_data db' fs1)
    | Some _ => (ok, fs1)
    end.

(** [POST /api/use-referral] *)
Definition use_referral (referrer_field referee_field faucet_token : string)
  (fs : Store) : Response * Store :=
  let rr := lower referrer_field in
  let re := lower referee_field in
  if negb (is_valid_address rr) || negb (is_valid_address re)
  then (InvalidAddress, fs)
  else if negb (faucet_token =? FAUCET_TOKEN) then (Unauthorized, fs)
  else
    let '(db, fs1) := load_data fs in
    let already_referenced :=
      find (fun item => referee item =? re) (referrals db) in
    match already_referenced with
    | Some _ => (DuplicateReferee, fs1)
    | None =>
        let total_referrals := total_for rr (referrals db) in
        if (200 <=? total_referrals)%nat then (CapExceeded, fs1)
        else
          let db' :=
            set_referrals (referrals db ++ [mkReferral rr re false]) db in
          ((Message "Indicação registrada!", 200), save_data db' fs1)
    end.

(** [GET /api/referral-status/<address>] *)
Definition referral_status (address_param : string) (fs : Store)
  : Response * Store :=
  let address := lower address_param in
  let '(db, fs1) := load_data fs in
  let matching :=
    filter (fun r => referrer r =? address) (referrals db) in
  let total := List.length matching in
  let paid_n := List.length (filter paid matching) in
  ((StatusBody total paid_n (total - paid_n) matching, 200), fs1).

(** The loop of [payout_list]: two entries appended per record. *)
Definition multisend (unpaid : list Referral) : list PayoutEntry :=
  fold_left
    (fun acc ref =>
       (acc ++ [mkEntry (referrer ref) 5]) ++ [mkEntry (referee ref) 5])
    unpaid [].

(** [GET /api/payout-list] *)
Definition payout_list (fs : Store) : Response * Store :=
  let '(db, fs1) := load_data fs in
  let unpaid := filter (fun r => negb (paid r)) (referrals db) in
  let multisend_list := multisend unpaid in
  ((PayoutBody (List.length multisend_list)
               (list_sum (map amount multisend_list))
               multisend_list, 200), fs1).

(** The comparison [secret_key != SECRET_KEY]; the header may be absent. *)
Definition key_matches (secret_key : option string) : bool :=
  match secret_key with
  | Some k => k =? SECRET_KEY
  | None => false
  end.

(** [POST /api/mark-paid] *)
Definition mark_paid (secret_key : option string) (fs : Store)
  : Response * Store :=
  if negb (key_matches secret_key) then (NotAuthorized, fs)
  else
    let '(db, fs1) := load_data fs in
    let db1 := set_referrals (map set_paid (referrals db)) db in
    let db2 := set_paid_referrals (referrals db1) db1 in
    let db3 := set_referrals [] db2 in
    ((Message "Todas as indicações foram marcadas como pagas.", 200),
     save_data db3 fs1).

(** ** Requests and runs *)

Inductive Request : Type :=
| RegisterReferral (address : string)
| UseReferral (referrer_field referee_field faucet_token : string)
| ReferralStatus (address : string)
| PayoutList
| MarkPaid (secret_key : option string).

Definition handle (rq : Request) (fs : Store) : Response * Store :=
  match rq with
  | RegisterReferral a => register_referral a fs
  | UseReferral r e t => use_referral r e t fs
  | ReferralStatus a => referral_status a fs
  | PayoutList => payout_list fs
  | MarkPaid k => mark_paid k fs
  end.

(** The file state after serving the requests in order. *)
Fixpoint run (rqs : list Request) (fs : Store) : Store :=
  match rqs with
  | [] => fs
  | rq :: rest => run rest (snd (handle rq fs))
  end.

(** The responses to the requests, in order. *)
Fixpoint responses (rqs : list Request) (fs : Store) : list Response :=
  match rqs with
  | [] => []
  | rq :: rest => fst (handle rq fs) :: responses rest (snd (handle rq fs))
  end.

(** A file state the server can reach from a missing file. *)
Definition reachable (fs : Store) : Prop :=
  exists rqs, run rqs None = fs.

(** Whether the request is a settlement that goes through. *)
Definition settles (rq : Request) : bool :=
  match rq with
  | MarkPaid k => key_matches k
  | _ => false
  end.

Definition no_settlement (rqs : list Request) : bool :=
  forallb (fun rq => negb (settles rq)) rqs.

(** Whether the request attaches a referee to [address]. *)
Definition attaches_to (address : string) (rq : Request) : bool :=
  match rq with
  | UseReferral r _ _ => lower r =? address
  | _ => false
  end.

(** The number of successful [use_referral] calls for [address] in a run. *)
Fixpoint attached (address : string) (rqs : list Request) (fs : Store)
  : nat :=
  match rqs with
  | [] => 0
  | rq :: rest =>
      (if attaches_to address rq && is_ok (fst (handle rq fs)) then 1 else 0)
      + attached address rest (snd (handle rq fs))
  end.

(** ** Sample data *)

Definition hex_digit (n : nat) : ascii :=
  ascii_of_nat (if (n <? 10)%nat then 48 + n else 87 + n).

Fixpoint zeros (n : nat) : string :=
  match n with
  | O => ""
  | S n' => String "0" (zeros n')
  end.

(** A well-formed address for every [n < 256], different for different [n]. *)
Definition sample_address (n : nat) : string :=
  ("0x" ++ zeros 38
   ++ String (hex_digit (n / 16)) (String (hex_digit (n mod 16)) ""))%string.

Definition alice : string := "0xAAAAaaaaAAAAaaaaAAAAaaaaAAAAaaaaAAAAaaaa".
Definition alice_l : string := "0xaaaaaaaaaaaaaaaaaaaaaaaaaaaaaaaaaaaaaaaa".
Definition bob : string := "0xbbbbbbbbbbbbbbbbbbbbbbbbbbbbbbbbbbbbbbbb".
Definition carol : string := "0xcccccccccccccccccccccccccccccccccccccccc".
Definition dave : string := "0xdddddddddddddddddddddddddddddddddddddddd".

(** [n] attach requests to [r] with the referees [sample_address 0] ..
    [sample_address (n - 1)]. *)
Definition attach_many (r : string) (n : nat) : list Request :=
  map (fun i => UseReferral r (sample_address i) FAUCET_TOKEN) (seq 0 n).

(** ** The validation order of [use_referral], as a list of checks *)

(** The four checks in the order the specification lists them; a check is
    [true] when it fails the request. *)
Definition attach_checks (rr re tok : string) (db : DB)
  : list (bool * Response) :=
  [ (negb (is_valid_address rr && is_valid_address re), InvalidAddress);
    (negb (tok =? FAUCET_TOKEN), Unauthorized);
    (existsb (fun item => referee item =? re) (referrals db),
     DuplicateReferee);
    ((REFERRAL_CAP <=? total_for rr (referrals db))%nat, CapExceeded) ].

(** The error of the first check that fails, if any does. *)
Fixpoint first_failing (checks : list (bool * Response)) : option Response :=
  match checks with
  | [] => None
  | (true, err) :: _ => Some err
  | (false, _) :: rest => first_failing rest
  end.

(** Whether every character after the two of the prefix is a hex digit. *)
Definition is_hex_digit (c : ascii) : bool :=
  let n := nat_of_ascii c in
  ((48 <=? n) && (n <=? 57) || (97 <=? n) && (n <=? 102)
   || (65 <=? n) && (n <=? 70))%nat.

Fixpoint all_hex (s : string) : bool :=
  match s with
  | EmptyString => true
  | String c s' => is_hex_digit c && all_hex s'
  end.

Definition not_hex : string := "0xzzzzzzzzzzzzzzzzzzzzzzzzzzzzzzzzzzzzzzzz".

(** ** Derived notions and sample files *)

(** A reachable file with one archived record and one active record. *)
Definition one_archived_one_active : Store :=
  run [UseReferral alice bob FAUCET_TOKEN; MarkPaid (Some SECRET_KEY);
       UseReferral carol dave FAUCET_TOKEN] None.

(** A reachable file with one archived record and no active record. *)
Definition one_archived_none_active : Store :=
  run [UseReferral alice bob FAUCET_TOKEN; MarkPaid (Some SECRET_KEY)] None.

(** The records of [l] that are registrations of [a]: referrer [a], no
    referee. *)
Definition registrations (a : string) (l : list Referral) : list Referral :=
  filter (fun item => (referrer item =? a) && (referee item =? "")) l.

(** A reachable file in which [alice] has an attached referee and no
    registration. *)
Definition attached_only : Store :=
  run [UseReferral alice bob FAUCET_TOKEN] None.

(** The records a request appends to [referrals] when it is no settlement. *)
Definition appended (rq : Request) (fs : Store) : list Referral :=
  match rq with
  | RegisterReferral a =>
      if is_valid_address (lower a)
         && negb (existsb (fun item => referrer item =? lower a)
                          (referrals (ledger fs)))
      then [mkReferral (lower a) "" false] else []
  | UseReferral r e t =>
      match first_failing
              (attach_checks (lower r) (lower e) t (ledger fs)) with
      | None => [mkReferral (lower r) (lower e) false]
      | Some _ => []
      end
  | _ => []
  end.

(** The records of [l] in which [a] referred somebody. *)
Definition referred (a : string) (l : list Referral) : list Referral :=
  filter (fun item => (referrer item =? a) && negb (referee item =? "")) l.

(** A reachable file that holds the registration of [alice] only. *)
Definition alice_registered : Store := run [RegisterReferral alice] None.

(** The number of records of [l] whose referee is [e]. *)
Definition referee_count (e : string) (l : list Referral) : nat :=
  length (filter (fun item => referee item =? e) l).

(** The two entries [payout_list] emits for a record. *)
Definition entries_of (ref : Referral) : list PayoutEntry :=
  [mkEntry (referrer ref) 5; mkEntry (referee ref) 5].

(** A reachable file with the registration of [alice] and one referee. *)
Definition registered_and_attached : Store :=
  run [RegisterReferral alice; UseReferral alice bob FAUCET_TOKEN] None.

(** ** The daily backup *)

Definition BACKUP_FOLDER : string := "backups".

(** The files of [BACKUP_FOLDER] by path, [None] while the folder does not
    exist. *)
Definition Folder : Type := option (string -> option DB).

(** What is at [path] in the folder. *)
Definition read_backup (bk : Folder) (path : string) : option DB :=
  match bk with
  | None => None
  | Some files => files path
  end.

(** [os.path.join(BACKUP_FOLDER, f"referrals_backup_{timestamp}.json")] *)
Definition backup_path (timestamp : string) : string :=
  (BACKUP_FOLDER ++ "/" ++ "referrals_backup_" ++ timestamp ++ ".json")%string.

(** [json.dump(data, f)] on [open(path, "w")]: the file is created or
    overwritten. *)
Definition write_file (path : string) (data : DB)
  (files : string -> option DB) : string -> option DB :=
  fun p => if p =? path then Some data else files p.

(** [backup_json_file], with the formatted clock reading
    [datetime.now().strftime("%Y%m%d_%H%M%S")] as [timestamp]: the folder
    is created when missing, the data file is read with [load_data] and its
    content written under the path of the timestamp. *)
Definition backup_json_file (timestamp : string) (fs : Store) (bk : Folder)
  : Store * Folder :=
  let files :=
    match bk with
    | None => fun _ => None
    | Some files => files
    end in
  let path := backup_path timestamp in
  let '(data, fs1) := load_data fs in
  (fs1, Some (write_file path data files)).

(** ** Well-formed records *)

(** A record whose addresses are stored as the handlers write them: a
    lowercase well-formed referrer, and a referee that is empty or a
    lowercase well-formed address. *)
Definition stored_well (ref : Referral) : bool :=
  is_valid_address (referrer ref)
  && (lower (referrer ref) =? referrer ref)
  && ((referee ref =? "") || is_valid_address (referee ref))
  && (lower (referee ref) =? referee ref).

(** * Properties *)

(** ** The file *)

Lemma ledger_some (db : DB) : ledger (Some db) = db.
Proof. reflexivity. Qed.

Lemma ledger_none : ledger None = empty_db.
Proof. reflexivity. Qed.

Lemma load_data_ledger (fs : Store) : load_data fs = (ledger fs, Some (ledger fs)).
Proof. destruct fs; reflexivity. Qed.

Lemma ledger_nonempty_some (fs : Store) :
  referrals (ledger fs) <> [] -> fs = Some (ledger fs).
Proof. destruct fs; simpl; [reflexivity | intros H; now elim H]. Qed.

(** ** Lists of records *)

Lemma find_existsb {A : Type} (f : A -> bool) (l : list A) :
  existsb f l = match find f l with Some _ => true | None => false end.
Proof.
  induction l as [|x l IH]; simpl; [reflexivity|].
  destruct (f x); [reflexivity | exact IH].
Qed.

Lemma total_for_app (a : string) (l1 l2 : list Referral) :
  total_for a (l1 ++ l2) = total_for a l1 + total_for a l2.
Proof. unfold total_for. now rewrite filter_app, length_app. Qed.

Lemma total_for_pos_existsb (a : string) (l : list Referral) :
  existsb (fun item => referrer item =? a) l = negb (total_for a l =? 0)%nat.
Proof.
  unfold total_for. induction l as [|x l IH]; simpl; [reflexivity|].
  destruct (referrer x =? a); simpl; [reflexivity | exact IH].
Qed.

(** ** Address format *)

Lemma prefix_0x (s : string) :
  String.prefix "0x" s = true <-> exists rest, s = ("0x" ++ rest)%string.
Proof.
  split.
  - destruct s as [|c1 [|c2 rest]]; cbn [String.prefix]; try discriminate.
    + now destruct (ascii_dec "0" c1).
    + destruct (ascii_dec "0" c1) as [<-|]; [|intros H; discriminate H].
      destruct (ascii_dec "x" c2) as [<-|]; [|intros H; discriminate H].
      intros _. now exists rest.
  - intros [rest ->]. cbn [String.prefix String.append].
    destruct (ascii_dec "0" "0") as [_|n]; [|now elim n].
    destruct (ascii_dec "x" "x") as [_|n]; [|now elim n].
    now destruct rest.
Qed.

(** C9: [is_valid_address] holds exactly of the strings that start with
    [0x] and have 42 characters; the 40 characters after the prefix are not
    inspected, and a string of 40 letters [z] after [0x] is accepted. *)
Theorem is_valid_address_prefix_and_length :
  (forall s : string,
      is_valid_address s = true <->
      (exists rest, s = ("0x" ++ rest)%string) /\ String.length s = 42)
  /\ (forall rest : string,
         is_valid_address ("0x" ++ rest) = (String.length rest =? 40)%nat)
  /\ (is_valid_address not_hex = true /\ all_hex not_hex = false).
Proof.
  split; [|split].
  - intros s. unfold is_valid_address.
    rewrite andb_true_iff, Nat.eqb_eq, prefix_0x. tauto.
  - intros rest. unfold is_valid_address.
    assert (H : String.prefix "0x" ("0x" ++ rest) = true)
      by (apply prefix_0x; now exists rest).
    rewrite H. reflexivity.
  - split; reflexivity.
Qed.

(** ** Attaching a referee *)

Lemma errors_distinct :
  InvalidAddress <> Unauthorized /\ InvalidAddress <> DuplicateReferee
  /\ InvalidAddress <> CapExceeded /\ Unauthorized <> DuplicateReferee
  /\ Unauthorized <> CapExceeded /\ DuplicateReferee <> CapExceeded.
Proof. repeat split; discriminate. Qed.

Lemma duplicate_needs_file (re : string) (fs : Store) :
  existsb (fun item => referee item =? re) (referrals (ledger fs)) = true ->
  Some (ledger fs) = fs.
Proof. destruct fs; simpl; [reflexivity | discriminate]. Qed.

Lemma cap_needs_file (rr : string) (fs : Store) :
  (REFERRAL_CAP <=? total_for rr (referrals (ledger fs)))%nat = true ->
  Some (ledger fs) = fs.
Proof. destruct fs; simpl; [reflexivity | discriminate]. Qed.

(** [use_referral] is the first failing check of [attach_checks], and the
    append when none fails. *)
Lemma use_referral_checks (r e tok : string) (fs : Store) :
  use_referral r e tok fs =
  match first_failing
          (attach_checks (lower r) (lower e) tok (ledger fs)) with
  | Some err => (err, fs)
  | None =>
      ((Message "Indicação registrada!", 200),
       Some (set_referrals
               (referrals (ledger fs)
                ++ [mkReferral (lower r) (lower e) false])
               (ledger fs)))
  end.
Proof.
  unfold use_referral, attach_checks, first_failing.
  rewrite negb_andb.
  destruct (negb (is_valid_address (lower r))
            || negb (is_valid_address (lower e))); [reflexivity|].
  destruct (negb (tok =? FAUCET_TOKEN)); [reflexivity|].
  rewrite load_data_ledger, find_existsb.
  destruct (find _ (referrals (ledger fs))) eqn:Hfind.
  - rewrite (duplicate_needs_file (lower e) fs); [reflexivity|].
    now rewrite find_existsb, Hfind.
  - change 200 with REFERRAL_CAP.
    destruct (REFERRAL_CAP <=? _)%nat eqn:Hcap; [|reflexivity].
    now rewrite (cap_needs_file _ _ Hcap).
Qed.

(** C5: [use_referral] checks, in this order, the format of both addresses,
    the token, the referee against the active records and the referrer's
    count against 200; the first check that fails gives the response and
    leaves the file as it was, so an invalid address with a wrong token is
    answered with the address error. *)
Theorem use_referral_validation_order (r e tok : string) (fs : Store) :
  use_referral r e tok fs =
    match first_failing
            (attach_checks (lower r) (lower e) tok (ledger fs)) with
    | Some err => (err, fs)
    | None =>
        ((Message "Indicação registrada!", 200),
         Some (set_referrals
                 (referrals (ledger fs)
                  ++ [mkReferral (lower r) (lower e) false])
                 (ledger fs)))
    end
  /\ (is_valid_address (lower r) && is_valid_address (lower e) = false ->
      tok <> FAUCET_TOKEN ->
      use_referral r e tok fs = (InvalidAddress, fs)
      /\ fst (use_referral r e tok fs) <> Unauthorized).
Proof.
  split; [apply use_referral_checks|].
  intros Hbad _. rewrite use_referral_checks.
  unfold attach_checks, first_failing. rewrite Hbad. simpl negb.
  split; [reflexivity | discriminate].
Qed.

Lemma use_referral_validation_order_witness :
  use_referral "0x12" bob "WRONG" None = (InvalidAddress, None)
  /\ fst (use_referral "0x12" bob "WRONG" None) <> Unauthorized.
Proof.
  apply (proj2 (use_referral_validation_order "0x12" bob "WRONG" None)).
  - reflexivity.
  - discriminate.
Defined.

(** ** Settlement *)

Lemma mark_paid_ok (k : option string) (fs : Store) :
  key_matches k = true ->
  mark_paid k fs =
  ((Message "Todas as indicações foram marcadas como pagas.", 200),
   Some (mkDB [] (map set_paid (referrals (ledger fs))))).
Proof.
  intros Hk. unfold mark_paid. rewrite Hk, load_data_ledger. reflexivity.
Qed.

Lemma mark_paid_denied (k : option string) (fs : Store) :
  key_matches k = false -> mark_paid k fs = (NotAuthorized, fs).
Proof. intros Hk. unfold mark_paid. now rewrite Hk. Qed.

Lemma key_matches_secret : key_matches (Some SECRET_KEY) = true.
Proof. reflexivity. Qed.

Lemma register_referral_paid_referrals (a : string) (fs : Store) :
  paid_referrals (ledger (snd (register_referral a fs)))
  = paid_referrals (ledger fs).
Proof.
  unfold register_referral.
  destruct (negb (is_valid_address (lower a))); [reflexivity|].
  rewrite load_data_ledger. now destruct (find _ _).
Qed.

Lemma use_referral_paid_referrals (r e tok : string) (fs : Store) :
  paid_referrals (ledger (snd (use_referral r e tok fs)))
  = paid_referrals (ledger fs).
Proof.
  rewrite use_referral_checks. now destruct (first_failing _).
Qed.

Lemma referral_status_store (a : string) (fs : Store) :
  snd (referral_status a fs) = Some (ledger fs).
Proof. unfold referral_status. now rewrite load_data_ledger. Qed.

Lemma payout_list_store (fs : Store) :
  snd (payout_list fs) = Some (ledger fs).
Proof. unfold payout_list. now rewrite load_data_ledger. Qed.

(** What a request does to [paid_referrals]. *)
Lemma handle_paid_referrals (rq : Request) (fs : Store) :
  paid_referrals (ledger (snd (handle rq fs))) =
  if settles rq then map set_paid (referrals (ledger fs))
  else paid_referrals (ledger fs).
Proof.
  destruct rq as [a|r e t|a| |k]; simpl.
  - apply register_referral_paid_referrals.
  - apply use_referral_paid_referrals.
  - now rewrite referral_status_store.
  - now rewrite payout_list_store.
  - destruct (key_matches k) eqn:Hk.
    + now rewrite mark_paid_ok.
    + now rewrite mark_paid_denied.
Qed.

(** C1, as stated, fails: a settlement drops the record archived by the
    settlement before it instead of appending after it. *)
Lemma archived_append_only_counterexample :
  In (mkReferral alice_l bob true)
     (paid_referrals (ledger one_archived_one_active))
  /\ ~ In (mkReferral alice_l bob true)
         (paid_referrals
            (ledger (snd (mark_paid (Some SECRET_KEY)
                                    one_archived_one_active))))
  /\ paid_referrals
       (ledger (snd (mark_paid (Some SECRET_KEY) one_archived_one_active)))
     <> paid_referrals (ledger one_archived_one_active)
        ++ map set_paid (referrals (ledger one_archived_one_active)).
Proof.
  vm_compute. split; [now left|]. split.
  - intros [H|[]]. discriminate H.
  - discriminate.
Qed.

(** C1, amended: a settlement sets [paid] on every active record, makes
    that list the whole of [paid_referrals] (what was archived before is
    replaced) and empties [referrals]; every other request, a refused
    settlement included, leaves [paid_referrals] as it was. *)
Theorem settlement_replaces_archive (rq : Request) (fs : Store) :
  paid_referrals (ledger (snd (handle rq fs)))
  = (if settles rq then map set_paid (referrals (ledger fs))
     else paid_referrals (ledger fs))
  /\ (let db' := ledger (snd (mark_paid (Some SECRET_KEY) fs)) in
      referrals db' = []
      /\ paid_referrals db' = map set_paid (referrals (ledger fs))
      /\ map referrer (paid_referrals db') = map referrer (referrals (ledger fs))
      /\ map referee (paid_referrals db') = map referee (referrals (ledger fs))
      /\ Forall (fun ref => paid ref = true) (paid_referrals db')).
Proof.
  split; [apply handle_paid_referrals|].
  rewrite (mark_paid_ok _ fs key_matches_secret). simpl.
  repeat split.
  - rewrite map_map. now apply map_ext.
  - rewrite map_map. now apply map_ext.
  - apply Forall_forall. intros x Hx. apply in_map_iff in Hx.
    now destruct Hx as [y [<- _]].
Qed.

(** C2, as stated, fails: with nothing active, a settlement still empties
    the archive. *)
Lemma settle_empty_active_counterexample :
  referrals (ledger one_archived_none_active) = []
  /\ is_ok (fst (mark_paid (Some SECRET_KEY) one_archived_none_active)) = true
  /\ paid_referrals (ledger one_archived_none_active)
     = [mkReferral alice_l bob true]
  /\ paid_referrals
       (ledger (snd (mark_paid (Some SECRET_KEY) one_archived_none_active)))
     = []
  /\ ledger (snd (mark_paid (Some SECRET_KEY) one_archived_none_active))
     <> ledger one_archived_none_active.
Proof. vm_compute. repeat split. discriminate. Qed.

(** C2, amended: with nothing active, a settlement succeeds and leaves
    [referrals] empty, and [paid_referrals] becomes empty too; the ledger
    is unchanged exactly when nothing was archived either. *)
Theorem settle_empty_active (fs : Store) :
  referrals (ledger fs) = [] ->
  is_ok (fst (mark_paid (Some SECRET_KEY) fs)) = true
  /\ ledger (snd (mark_paid (Some SECRET_KEY) fs)) = empty_db
  /\ (ledger (snd (mark_paid (Some SECRET_KEY) fs)) = ledger fs
      <-> paid_referrals (ledger fs) = []).
Proof.
  intros Hactive. rewrite (mark_paid_ok _ fs key_matches_secret), Hactive.
  simpl. repeat split.
  - intros <-. reflexivity.
  - intros Harch. destruct (ledger fs) as [act arch]; simpl in *.
    now subst.
Qed.

Lemma settle_empty_active_witness :
  is_ok (fst (mark_paid (Some SECRET_KEY) one_archived_none_active)) = true
  /\ ledger (snd (mark_paid (Some SECRET_KEY) one_archived_none_active))
     = empty_db
  /\ (ledger (snd (mark_paid (Some SECRET_KEY) one_archived_none_active))
      = ledger one_archived_none_active
      <-> paid_referrals (ledger one_archived_none_active) = []).
Proof.
  apply (settle_empty_active one_archived_none_active). reflexivity.
Defined.

(** ** Registration *)

Lemma register_referral_invalid (a : string) (fs : Store) :
  is_valid_address (lower a) = false ->
  register_referral a fs = (InvalidAddress, fs).
Proof. intros H. unfold register_referral. now rewrite H. Qed.

Lemma register_referral_valid (a : string) (fs : Store) :
  is_valid_address (lower a) = true ->
  register_referral a fs =
  ((Message "Link registrado localmente", 200),
   Some (if existsb (fun item => referrer item =? lower a)
                    (referrals (ledger fs))
         then ledger fs
         else set_referrals
                (referrals (ledger fs) ++ [mkReferral (lower a) "" false])
                (ledger fs))).
Proof.
  intros H. unfold register_referral.
  rewrite H, load_data_ledger, find_existsb. simpl negb. cbv iota.
  now destruct (find _ _).
Qed.

Lemma registrations_unknown (a : string) (l : list Referral) :
  total_for a l = 0 -> registrations a l = [].
Proof.
  unfold total_for, registrations. induction l as [|x l IH]; simpl;
    [reflexivity|].
  destruct (referrer x =? a); simpl; [discriminate | exact IH].
Qed.

Lemma registrations_app (a : string) (l1 l2 : list Referral) :
  registrations a (l1 ++ l2) = registrations a l1 ++ registrations a l2.
Proof. apply filter_app. Qed.

(** C3, as stated, fails: no record with referrer [alice] and empty referee
    exists, yet [register_referral] appends nothing, and after two calls
    there is no record with that referrer and empty referee. *)
Lemma register_counterexample :
  is_valid_address (lower alice) = true
  /\ registrations (lower alice) (referrals (ledger attached_only)) = []
  /\ snd (register_referral alice attached_only) = attached_only
  /\ length
       (registrations (lower alice)
          (referrals
             (ledger (run [RegisterReferral alice; RegisterReferral alice]
                          attached_only))))
     = 0.
Proof. vm_compute. repeat split. Qed.

(** C3, amended: for a valid address, [register_referral] appends the
    record with empty referee exactly when no active record has this
    referrer, whatever its referee; a second call appends nothing, and
    after two calls the number of records with this referrer and empty
    referee is one when the referrer had no active record, and what it was
    otherwise. *)
Theorem register_referral_appends_iff_unknown (a : string) (fs : Store) :
  is_valid_address (lower a) = true ->
  let once := snd (register_referral a fs) in
  let twice := snd (register_referral a once) in
  referrals (ledger once)
  = (if existsb (fun item => referrer item =? lower a)
                (referrals (ledger fs))
     then referrals (ledger fs)
     else referrals (ledger fs) ++ [mkReferral (lower a) "" false])
  /\ paid_referrals (ledger once) = paid_referrals (ledger fs)
  /\ twice = once
  /\ length (registrations (lower a) (referrals (ledger twice)))
     = (if (total_for (lower a) (referrals (ledger fs)) =? 0)%nat then 1
        else length (registrations (lower a) (referrals (ledger fs)))).
Proof.
  intros Hvalid once twice.
  assert (Honce : once =
    Some (if existsb (fun item => referrer item =? lower a)
                     (referrals (ledger fs))
          then ledger fs
          else set_referrals
                 (referrals (ledger fs) ++ [mkReferral (lower a) "" false])
                 (ledger fs))).
  { unfold once. now rewrite register_referral_valid. }
  assert (Hknown : existsb (fun item => referrer item =? lower a)
                           (referrals (ledger once)) = true).
  { rewrite Honce, ledger_some.
    destruct (existsb _ (referrals (ledger fs))) eqn:Hex; [exact Hex|].
    simpl. rewrite existsb_app. simpl.
    rewrite String.eqb_refl. now rewrite orb_true_r. }
  assert (Htwice : twice = once).
  { unfold twice. rewrite register_referral_valid by exact Hvalid.
    rewrite Hknown. simpl. rewrite Honce. reflexivity. }
  split; [|split; [|split]].
  - rewrite Honce, ledger_some. now destruct (existsb _ _).
  - apply register_referral_paid_referrals.
  - exact Htwice.
  - rewrite Htwice, Honce, ledger_some.
    rewrite total_for_pos_existsb.
    destruct (total_for (lower a) (referrals (ledger fs)) =? 0)%nat eqn:Hz;
      simpl; [|reflexivity].
    rewrite registrations_app, length_app.
    rewrite registrations_unknown by now apply Nat.eqb_eq.
    simpl. now rewrite String.eqb_refl.
Qed.

Lemma register_referral_appends_iff_unknown_witness :
  referrals (ledger (snd (register_referral alice None)))
  = [mkReferral alice_l "" false]
  /\ paid_referrals (ledger (snd (register_referral alice None))) = []
  /\ snd (register_referral alice (snd (register_referral alice None)))
     = snd (register_referral alice None)
  /\ length
       (registrations (lower alice)
          (referrals
             (ledger
                (snd (register_referral alice
                        (snd (register_referral alice None)))))))
     = 1.
Proof.
  apply (register_referral_appends_iff_unknown alice None). reflexivity.
Defined.

(** ** What a request appends to the active records *)

Lemma handle_referrals (rq : Request) (fs : Store) :
  referrals (ledger (snd (handle rq fs))) =
  if settles rq then [] else referrals (ledger fs) ++ appended rq fs.
Proof.
  destruct rq as [a|r e t|a| |k]; cbn [handle settles appended].
  - destruct (is_valid_address (lower a)) eqn:Hv.
    + rewrite register_referral_valid by exact Hv. simpl.
      destruct (existsb _ _); simpl; [now rewrite app_nil_r | reflexivity].
    + rewrite register_referral_invalid by exact Hv. simpl.
      now rewrite app_nil_r.
  - rewrite use_referral_checks.
    destruct (first_failing _); simpl; [now rewrite app_nil_r | reflexivity].
  - rewrite referral_status_store. simpl. now rewrite app_nil_r.
  - rewrite payout_list_store. simpl. now rewrite app_nil_r.
  - destruct (key_matches k) eqn:Hk.
    + now rewrite mark_paid_ok.
    + rewrite mark_paid_denied by exact Hk. simpl. now rewrite app_nil_r.
Qed.

Lemma attach_error_not_ok (rr re tok : string) (db : DB) (err : Response) :
  first_failing (attach_checks rr re tok db) = Some err -> is_ok err = false.
Proof.
  unfold attach_checks, first_failing.
  destruct (negb _); [intros [= <-]; reflexivity|].
  destruct (negb _); [intros [= <-]; reflexivity|].
  destruct (existsb _ _); [intros [= <-]; reflexivity|].
  destruct (_ <=? _)%nat; [intros [= <-]; reflexivity | discriminate].
Qed.

Lemma use_referral_ok (r e tok : string) (fs : Store) :
  is_ok (fst (use_referral r e tok fs)) =
  match first_failing
          (attach_checks (lower r) (lower e) tok (ledger fs)) with
  | None => true
  | Some _ => false
  end.
Proof.
  rewrite use_referral_checks.
  destruct (first_failing _) eqn:Hff; [|reflexivity].
  simpl. now apply attach_error_not_ok in Hff.
Qed.

(** What passing the four checks means. *)
Lemma attach_checks_pass (rr re tok : string) (db : DB) :
  first_failing (attach_checks rr re tok db) = None <->
  is_valid_address rr = true /\ is_valid_address re = true
  /\ tok = FAUCET_TOKEN
  /\ existsb (fun item => referee item =? re) (referrals db) = false
  /\ total_for rr (referrals db) < REFERRAL_CAP.
Proof.
  unfold attach_checks, first_failing.
  destruct (is_valid_address rr), (is_valid_address re); cbn [andb negb];
    try (split; [discriminate | intros (? & ? & _); discriminate]).
  destruct (tok =? FAUCET_TOKEN) eqn:Ht; cbn [negb].
  - apply String.eqb_eq in Ht.
    destruct (existsb _ (referrals db)).
    + split; [discriminate | intros (_ & _ & _ & ? & _); discriminate].
    + destruct (REFERRAL_CAP <=? total_for rr (referrals db))%nat eqn:Hc.
      * apply Nat.leb_le in Hc.
        split; [discriminate | intros (_ & _ & _ & _ & ?); lia].
      * apply Nat.leb_gt in Hc. tauto.
  - apply String.eqb_neq in Ht.
    split; [discriminate | intros (_ & _ & ? & _); contradiction].
Qed.

(** A request adds at most one record for a referrer, and none once the
    referrer has 200. *)
Lemma appended_total (a : string) (rq : Request) (fs : Store) :
  total_for a (appended rq fs) <= 1
  /\ (total_for a (appended rq fs) = 1 ->
      total_for a (referrals (ledger fs)) < REFERRAL_CAP).
Proof.
  destruct rq as [a'|r e t|a'| |k]; cbn [appended];
    try (split; [apply Nat.le_0_l | discriminate]).
  - destruct (is_valid_address (lower a')); simpl;
      [|split; [apply Nat.le_0_l | discriminate]].
    destruct (existsb _ _) eqn:Hex; simpl;
      [split; [apply Nat.le_0_l | discriminate]|].
    unfold total_for at 1 2. simpl.
    destruct (lower a' =? a) eqn:Ha; simpl;
      [|split; [apply Nat.le_0_l | discriminate]].
    apply String.eqb_eq in Ha. subst a.
    split; [apply Nat.le_refl|]. intros _.
    rewrite total_for_pos_existsb in Hex.
    apply negb_false_iff, Nat.eqb_eq in Hex. rewrite Hex.
    unfold REFERRAL_CAP. lia.
  - destruct (first_failing _) eqn:Hff; simpl;
      [split; [apply Nat.le_0_l | discriminate]|].
    apply attach_checks_pass in Hff.
    destruct Hff as (_ & _ & _ & _ & Hcap).
    unfold total_for at 1 2. simpl.
    destruct (lower r =? a) eqn:Ha; simpl;
      [|split; [apply Nat.le_0_l | discriminate]].
    apply String.eqb_eq in Ha. subst a.
    split; [apply Nat.le_refl | now intros _].
Qed.

(** A successful attach to [a] appends one record of [a]. *)
Lemma attached_step (a : string) (rq : Request) (fs : Store) :
  (if attaches_to a rq && is_ok (fst (handle rq fs)) then 1 else 0)
  <= total_for a (appended rq fs).
Proof.
  destruct rq as [a'|r e t|a'| |k]; cbn [handle attaches_to appended andb];
    try apply Nat.le_0_l.
  destruct (lower r =? a) eqn:Ha; cbn [andb]; [|apply Nat.le_0_l].
  rewrite use_referral_ok.
  destruct (first_failing _); [apply Nat.le_0_l|].
  unfold total_for. simpl. now rewrite Ha.
Qed.

(** ** Runs without a settlement *)

Lemma total_for_handle (a : string) (rq : Request) (fs : Store) :
  settles rq = false ->
  total_for a (referrals (ledger (snd (handle rq fs))))
  = total_for a (referrals (ledger fs)) + total_for a (appended rq fs).
Proof.
  intros Hs. rewrite handle_referrals, Hs. apply total_for_app.
Qed.

Lemma no_settlement_cons (rq : Request) (rqs : list Request) :
  no_settlement (rq :: rqs) = true ->
  settles rq = false /\ no_settlement rqs = true.
Proof.
  unfold no_settlement. simpl. rewrite andb_true_iff, negb_true_iff. tauto.
Qed.

(** The count of a referrer grows by at least the successful attaches. *)
Lemma total_for_run (a : string) (rqs : list Request) :
  forall fs : Store,
    no_settlement rqs = true ->
    total_for a (referrals (ledger fs)) + attached a rqs fs
    <= total_for a (referrals (ledger (run rqs fs))).
Proof.
  induction rqs as [|rq rqs IH]; intros fs Hns; simpl.
  - lia.
  - apply no_settlement_cons in Hns. destruct Hns as [Hs Hns].
    specialize (IH (snd (handle rq fs)) Hns).
    rewrite (total_for_handle a rq fs Hs) in IH.
    pose proof (attached_step a rq fs). lia.
Qed.

(** The successful attaches fit in what the cap leaves. *)
Lemma attached_cap (a : string) (rqs : list Request) :
  forall fs : Store,
    no_settlement rqs = true ->
    attached a rqs fs <= REFERRAL_CAP - total_for a (referrals (ledger fs)).
Proof.
  induction rqs as [|rq rqs IH]; intros fs Hns; cbn [attached].
  - lia.
  - apply no_settlement_cons in Hns. destruct Hns as [Hs Hns].
    specialize (IH (snd (handle rq fs)) Hns).
    rewrite (total_for_handle a rq fs Hs) in IH.
    pose proof (attached_step a rq fs) as Hstep.
    destruct (appended_total a rq fs) as [Hle Hroom].
    destruct (Nat.eq_dec (total_for a (appended rq fs)) 1) as [H1|H1].
    + specialize (Hroom H1). lia.
    + lia.
Qed.

(** No request takes a referrer's count above the cap. *)
Lemma cap_invariant (a : string) (rqs : list Request) :
  forall fs : Store,
    total_for a (referrals (ledger fs)) <= REFERRAL_CAP ->
    total_for a (referrals (ledger (run rqs fs))) <= REFERRAL_CAP.
Proof.
  induction rqs as [|rq rqs IH]; intros fs Hinv; simpl; [exact Hinv|].
  apply IH. rewrite handle_referrals.
  destruct (settles rq); [apply Nat.le_0_l|].
  rewrite total_for_app.
  destruct (appended_total a rq fs) as [Hle Hroom].
  destruct (Nat.eq_dec (total_for a (appended rq fs)) 1) as [H1|H1].
  - specialize (Hroom H1). lia.
  - lia.
Qed.

(** Only a well-formed referrer has successful attaches. *)
Lemma attached_valid (a : string) (rqs : list Request) :
  forall fs : Store, 0 < attached a rqs fs -> is_valid_address a = true.
Proof.
  induction rqs as [|rq rqs IH]; intros fs Hpos; simpl in Hpos; [lia|].
  destruct (attaches_to a rq && is_ok (fst (handle rq fs))) eqn:Hstep.
  - apply andb_true_iff in Hstep. destruct Hstep as [Hto Hok].
    destruct rq as [a'|r e t|a'| |k]; try discriminate Hto.
    cbn [attaches_to handle] in Hto, Hok.
    apply String.eqb_eq in Hto. subst a.
    rewrite use_referral_ok in Hok.
    destruct (first_failing _) eqn:Hff; [discriminate|].
    now apply attach_checks_pass in Hff.
  - apply (IH (snd (handle rq fs))). lia.
Qed.

(** Without a settlement a referee, once in an active record, stays. *)
Lemma referee_known_run (re : string) (rqs : list Request) :
  forall fs : Store,
    no_settlement rqs = true ->
    existsb (fun item => referee item =? re) (referrals (ledger fs)) = true ->
    existsb (fun item => referee item =? re)
            (referrals (ledger (run rqs fs))) = true.
Proof.
  induction rqs as [|rq rqs IH]; intros fs Hns Hin; simpl; [exact Hin|].
  apply no_settlement_cons in Hns. destruct Hns as [Hs Hns].
  apply IH; [exact Hns|].
  rewrite handle_referrals, Hs, existsb_app, Hin. reflexivity.
Qed.

(** Until the next settlement, a referee that was attached is refused for
    every well-formed referrer. *)
Lemma duplicate_referee_until_settlement
  (r e tok r' : string) (rqs : list Request) (fs : Store) :
  is_ok (fst (use_referral r e tok fs)) = true ->
  no_settlement rqs = true ->
  is_valid_address (lower r') = true ->
  let fs' := run rqs (snd (use_referral r e tok fs)) in
  use_referral r' e tok fs' = (DuplicateReferee, fs').
Proof.
  intros Hok Hns Hvalid fs'.
  rewrite use_referral_ok in Hok.
  destruct (first_failing _) eqn:Hff; [discriminate|].
  assert (Hin : existsb (fun item => referee item =? lower e)
                        (referrals (ledger fs')) = true).
  { apply referee_known_run; [exact Hns|].
    rewrite use_referral_checks, Hff. simpl.
    rewrite existsb_app. simpl. rewrite String.eqb_refl.
    now rewrite orb_true_r. }
  apply attach_checks_pass in Hff.
  destruct Hff as (_ & Hve & Htok & _).
  rewrite use_referral_checks. unfold attach_checks, first_failing.
  rewrite Hvalid, Hve, Htok, String.eqb_refl, Hin. reflexivity.
Qed.

(** C4, on the code: [bob] is attached to [alice], the ledger is settled,
    and [bob] is attached again, to [carol]; the check for a referee that
    was already referred looks at the active records only and the third
    request succeeds where the claim expects the duplicate error. *)
Theorem referee_attached_again_after_settlement :
  responses [UseReferral alice bob FAUCET_TOKEN;
             MarkPaid (Some SECRET_KEY);
             UseReferral carol bob FAUCET_TOKEN] None
  = [(Message "Indicação registrada!", 200);
     (Message "Todas as indicações foram marcadas como pagas.", 200);
     (Message "Indicação registrada!", 200)]
  /\ fst (use_referral carol bob FAUCET_TOKEN
            (run [UseReferral alice bob FAUCET_TOKEN;
                  MarkPaid (Some SECRET_KEY)] None))
     <> DuplicateReferee
  /\ ledger (run [UseReferral alice bob FAUCET_TOKEN;
                  MarkPaid (Some SECRET_KEY);
                  UseReferral carol bob FAUCET_TOKEN] None)
     = mkDB [mkReferral carol bob false] [mkReferral alice_l bob true].
Proof. vm_compute. repeat split. discriminate. Qed.

(** ** The cap on a referrer *)

Lemma total_for_split (a : string) (l : list Referral) :
  total_for a l = length (registrations a l) + length (referred a l).
Proof.
  unfold total_for, registrations, referred.
  induction l as [|x l IH]; simpl; [reflexivity|].
  destruct (referrer x =? a); simpl; [|exact IH].
  destruct (referee x =? ""); simpl; lia.
Qed.

Lemma registration_in (a : string) (l : list Referral) :
  In (mkReferral a "" false) l -> 1 <= length (registrations a l).
Proof.
  intros Hin.
  assert (H : In (mkReferral a "" false) (registrations a l)).
  { apply filter_In. split; [exact Hin|]. simpl.
    now rewrite String.eqb_refl. }
  destruct (registrations a l); [contradiction | simpl; lia].
Qed.

(** At the cap, a request that passes the first three checks gets the cap
    error. *)
Lemma use_referral_at_cap (r e tok : string) (fs : Store) :
  is_valid_address (lower r) = true ->
  is_valid_address (lower e) = true ->
  tok = FAUCET_TOKEN ->
  existsb (fun item => referee item =? lower e) (referrals (ledger fs))
  = false ->
  REFERRAL_CAP <= total_for (lower r) (referrals (ledger fs)) ->
  use_referral r e tok fs = (CapExceeded, fs).
Proof.
  intros Hr He -> Hfresh Hcap.
  rewrite use_referral_checks. unfold attach_checks, first_failing.
  rewrite Hr, He, String.eqb_refl, Hfresh.
  apply Nat.leb_le in Hcap. now rewrite Hcap.
Qed.

(** At the cap, no request for the referrer succeeds or changes the file. *)
Lemma use_referral_full (r e tok : string) (fs : Store) :
  REFERRAL_CAP <= total_for (lower r) (referrals (ledger fs)) ->
  is_ok (fst (use_referral r e tok fs)) = false
  /\ snd (use_referral r e tok fs) = fs.
Proof.
  intros Hcap. rewrite use_referral_ok, use_referral_checks.
  destruct (first_failing _) eqn:Hff; [now split|].
  apply attach_checks_pass in Hff. lia.
Qed.

(** C6: when 200 requests of a run without settlement have attached a
    referee to a referrer, the next request for that referrer does not
    succeed and leaves the file as it is, and it is answered with the cap
    error whenever it passes the checks that come before the cap; and in
    no file the server reaches does a referrer have more than 200 active
    records. *)
Theorem referral_cap
  (a : string) (rqs : list Request) (fs : Store) (r e tok : string) :
  no_settlement rqs = true ->
  REFERRAL_CAP <= attached a rqs fs ->
  lower r = a ->
  let fs' := run rqs fs in
  is_ok (fst (use_referral r e tok fs')) = false
  /\ snd (use_referral r e tok fs') = fs'
  /\ (is_valid_address (lower e) = true ->
      tok = FAUCET_TOKEN ->
      existsb (fun item => referee item =? lower e) (referrals (ledger fs'))
      = false ->
      use_referral r e tok fs' = (CapExceeded, fs'))
  /\ (forall (b : string) (rqs0 : list Request),
         total_for b (referrals (ledger (run rqs0 None))) <= 200).
Proof.
  intros Hns H200 Hr fs'.
  assert (Hfull : REFERRAL_CAP <= total_for (lower r) (referrals (ledger fs'))).
  { rewrite Hr. pose proof (total_for_run a rqs fs Hns). unfold fs'. lia. }
  assert (Hvalid : is_valid_address (lower r) = true).
  { rewrite Hr. apply (attached_valid a rqs fs). unfold REFERRAL_CAP in H200.
    lia. }
  destruct (use_referral_full r e tok fs' Hfull) as [Hno Hsame].
  repeat split.
  - exact Hno.
  - exact Hsame.
  - intros He Htok Hfresh. now apply use_referral_at_cap.
  - intros b rqs0. apply (cap_invariant b rqs0 None). simpl. apply Nat.le_0_l.
Qed.

Lemma referral_cap_witness :
  let fs' := run (attach_many alice 200) None in
  is_ok (fst (use_referral alice (sample_address 200) FAUCET_TOKEN fs'))
  = false
  /\ snd (use_referral alice (sample_address 200) FAUCET_TOKEN fs') = fs'
  /\ (is_valid_address (lower (sample_address 200)) = true ->
      FAUCET_TOKEN = FAUCET_TOKEN ->
      existsb (fun item => referee item =? lower (sample_address 200))
              (referrals (ledger fs'))
      = false ->
      use_referral alice (sample_address 200) FAUCET_TOKEN fs'
      = (CapExceeded, fs'))
  /\ (forall (b : string) (rqs0 : list Request),
         total_for b (referrals (ledger (run rqs0 None))) <= 200).
Proof.
  apply (referral_cap alice_l (attach_many alice 200) None alice
                      (sample_address 200) FAUCET_TOKEN).
  - vm_compute. reflexivity.
  - vm_compute. apply le_n.
  - vm_compute. reflexivity.
Defined.

(** From an empty ledger, 200 attaches to one referrer succeed and the next
    one gets the cap error. *)
Example cap_reached_after_200 :
  attached alice_l (attach_many alice 200) None = 200
  /\ fst (use_referral alice (sample_address 200) FAUCET_TOKEN
            (run (attach_many alice 200) None))
     = CapExceeded.
Proof. vm_compute. split; reflexivity. Qed.

(** After a registration the referrer's count is at least one. *)
Lemma register_referral_total (a0 : string) (fs0 : Store) :
  is_valid_address (lower a0) = true ->
  1 <= total_for (lower a0)
         (referrals (ledger (snd (register_referral a0 fs0)))).
Proof.
  intros Hv. rewrite register_referral_valid by exact Hv.
  cbn [snd]. rewrite ledger_some.
  destruct (existsb _ _) eqn:Hex.
  - rewrite total_for_pos_existsb in Hex.
    apply negb_true_iff, Nat.eqb_neq in Hex. lia.
  - cbn [set_referrals referrals]. rewrite total_for_app.
    unfold total_for at 2. simpl.
    rewrite String.eqb_refl. simpl. lia.
Qed.

(** C10: in a file whose active records hold the registration of a
    referrer, that record is one of those [use_referral] counts: a request
    that passes the earlier checks gets the cap error as soon as 199 records
    with a referee stand beside it, so no run without settlement attaches
    more than 199 referees to the referrer; the same bound holds for the
    requests that follow a registration. *)
Theorem registration_counts_toward_cap (a : string) (fs : Store) :
  In (mkReferral a "" false) (referrals (ledger fs)) ->
  total_for a (referrals (ledger fs))
  = length (registrations a (referrals (ledger fs)))
    + length (referred a (referrals (ledger fs)))
  /\ 1 <= length (registrations a (referrals (ledger fs)))
  /\ (forall r e tok : string,
         lower r = a ->
         is_valid_address a = true ->
         is_valid_address (lower e) = true ->
         tok = FAUCET_TOKEN ->
         existsb (fun item => referee item =? lower e)
                 (referrals (ledger fs)) = false ->
         199 <= length (referred a (referrals (ledger fs))) ->
         use_referral r e tok fs = (CapExceeded, fs))
  /\ (forall rqs : list Request,
         no_settlement rqs = true -> attached a rqs fs <= 199)
  /\ (forall (a0 : string) (fs0 : Store) (rqs : list Request),
         lower a0 = a ->
         is_valid_address a = true ->
         no_settlement rqs = true ->
         attached a rqs (snd (register_referral a0 fs0)) <= 199).
Proof.
  intros Hin.
  pose proof (total_for_split a (referrals (ledger fs))) as Hsplit.
  pose proof (registration_in a _ Hin) as Hreg.
  split; [exact Hsplit|]. split; [exact Hreg|]. split; [|split].
  - intros r e tok Hr Hva Hve Htok Hfresh H199. subst a.
    apply use_referral_at_cap; try assumption.
    unfold REFERRAL_CAP. lia.
  - intros rqs Hns. pose proof (attached_cap a rqs fs Hns).
    unfold REFERRAL_CAP in *. lia.
  - intros a0 fs0 rqs Ha Hva Hns. subst a.
    pose proof (attached_cap (lower a0) rqs
                  (snd (register_referral a0 fs0)) Hns) as Hcap.
    pose proof (register_referral_total a0 fs0 Hva).
    unfold REFERRAL_CAP in *. lia.
Qed.

Lemma registration_counts_toward_cap_witness :
  In (mkReferral alice_l "" false) (referrals (ledger alice_registered))
  /\ attached alice_l (attach_many alice 200) alice_registered <= 199.
Proof.
  assert (Hin : In (mkReferral alice_l "" false)
                   (referrals (ledger alice_registered)))
    by (vm_compute; now left).
  split; [exact Hin|].
  destruct (registration_counts_toward_cap alice_l alice_registered Hin)
    as (_ & _ & _ & Hruns & _).
  apply Hruns. vm_compute. reflexivity.
Defined.

(** After a registration, 199 attaches succeed and the 200th gets the cap
    error. *)
Example registered_referrer_attaches_199 :
  attached alice_l (attach_many alice 199) alice_registered = 199
  /\ fst (use_referral alice (sample_address 199) FAUCET_TOKEN
            (run (attach_many alice 199) alice_registered))
     = CapExceeded.
Proof. vm_compute. split; reflexivity. Qed.

(** ** Queries *)

Lemma multisend_from (l : list Referral) :
  forall acc : list PayoutEntry,
    fold_left
      (fun acc ref =>
         (acc ++ [mkEntry (referrer ref) 5]) ++ [mkEntry (referee ref) 5])
      l acc
    = acc ++ flat_map entries_of l.
Proof.
  induction l as [|x l IH]; intros acc; simpl.
  - now rewrite app_nil_r.
  - rewrite IH. now rewrite <- !app_assoc.
Qed.

Lemma multisend_flat_map (l : list Referral) :
  multisend l = flat_map entries_of l.
Proof. unfold multisend. now rewrite multisend_from. Qed.

Lemma multisend_length (l : list Referral) :
  length (multisend l) = 2 * length l.
Proof.
  rewrite multisend_flat_map.
  induction l as [|x l IH]; simpl; [reflexivity | rewrite IH; lia].
Qed.

Lemma multisend_sum (l : list Referral) :
  list_sum (map amount (multisend l)) = 5 * length (multisend l).
Proof.
  rewrite multisend_flat_map.
  induction l as [|x l IH]; simpl; [reflexivity|].
  simpl in IH. rewrite IH. lia.
Qed.

Lemma multisend_amounts (l : list Referral) :
  Forall (fun en => amount en = 5) (multisend l).
Proof.
  rewrite multisend_flat_map.
  induction l as [|x l IH]; simpl; [constructor|].
  constructor; [reflexivity|]. constructor; [reflexivity | exact IH].
Qed.

Lemma filter_unpaid (l : list Referral) :
  Forall (fun ref => paid ref = false) l ->
  filter (fun r => negb (paid r)) l = l.
Proof.
  induction 1 as [|x l Hx _ IH]; simpl; [reflexivity|].
  now rewrite Hx, IH.
Qed.

Lemma appended_unpaid (rq : Request) (fs : Store) :
  Forall (fun ref => paid ref = false) (appended rq fs).
Proof.
  destruct rq as [a|r e t|a| |k]; cbn [appended]; try constructor.
  - destruct (_ && _); repeat constructor.
  - destruct (first_failing _); repeat constructor.
Qed.

(** I4 on the active records: the server never writes a file in which an
    active record is paid. *)
Lemma active_unpaid_run (rqs : list Request) :
  forall fs : Store,
    Forall (fun ref => paid ref = false) (referrals (ledger fs)) ->
    Forall (fun ref => paid ref = false) (referrals (ledger (run rqs fs))).
Proof.
  induction rqs as [|rq rqs IH]; intros fs Hinv; simpl; [exact Hinv|].
  apply IH. rewrite handle_referrals.
  destruct (settles rq); [constructor|].
  apply Forall_app. split; [exact Hinv | apply appended_unpaid].
Qed.

(** C7: in a file whose active records are all unpaid, which is every
    file the server reaches, [payout_list] counts two people per active
    record and five units per person, lists for each record its referrer
    and then its referee with 5 units each, lists the empty referee of a
    registration as an empty wallet next to the referrer, and leaves the
    ledger as it is. *)
Theorem payout_list_totals (fs : Store) :
  Forall (fun ref => paid ref = false) (referrals (ledger fs)) ->
  let active := referrals (ledger fs) in
  payout_list fs
  = ((PayoutBody (2 * length active) (5 * (2 * length active))
                 (flat_map entries_of active), 200),
     Some (ledger fs))
  /\ Forall (fun en => amount en = 5) (flat_map entries_of active)
  /\ (forall (a : string) (p : bool),
         In (mkReferral a "" p) active ->
         exists before after,
           flat_map entries_of active
           = before ++ [mkEntry a 5; mkEntry "" 5] ++ after)
  /\ ledger (snd (payout_list fs)) = ledger fs
  /\ (forall rqs : list Request,
         Forall (fun ref => paid ref = false)
                (referrals (ledger (run rqs None)))).
Proof.
  intros Hunpaid active.
  assert (Heq : payout_list fs
    = ((PayoutBody (2 * length active) (5 * (2 * length active))
                   (flat_map entries_of active), 200),
       Some (ledger fs))).
  { unfold payout_list. rewrite load_data_ledger.
    rewrite (filter_unpaid _ Hunpaid). fold active.
    rewrite multisend_sum, multisend_length, multisend_flat_map.
    reflexivity. }
  split; [exact Heq|]. split; [|split; [|split]].
  - rewrite <- multisend_flat_map. apply multisend_amounts.
  - intros a p Hin. apply in_split in Hin.
    destruct Hin as (l1 & l2 & Hsplit). rewrite Hsplit.
    exists (flat_map entries_of l1), (flat_map entries_of l2).
    rewrite flat_map_app. reflexivity.
  - rewrite Heq. reflexivity.
  - intros rqs. apply (active_unpaid_run rqs None). constructor.
Qed.

Lemma payout_list_totals_witness :
  fst (payout_list registered_and_attached)
  = (PayoutBody 4 20
       [mkEntry alice_l 5; mkEntry "" 5; mkEntry alice_l 5; mkEntry bob 5],
     200).
Proof.
  assert (Hunpaid : Forall (fun ref => paid ref = false)
                           (referrals (ledger registered_and_attached)))
    by (vm_compute; repeat constructor).
  destruct (payout_list_totals registered_and_attached Hunpaid) as [Heq _].
  rewrite Heq. reflexivity.
Defined.

Lemma paid_split (l : list Referral) :
  length l - length (filter paid l)
  = length (filter (fun r => negb (paid r)) l)
  /\ length (filter paid l) <= length l.
Proof.
  induction l as [|x l [IH1 IH2]]; [split; reflexivity|].
  cbn [filter]. destruct (paid x); cbn [negb length]; split; lia.
Qed.

(** C8: [referral_status] answers from the active records alone: it keeps
    those whose referrer is the lowercased address, in the order of the
    file, and reports their number, the number of paid ones and the rest;
    [paid_referrals] has no part in the answer, and right after a
    settlement the answer for every address is a total of 0. *)
Theorem referral_status_scans_active
  (address : string) (active archived other : list Referral) (fs : Store) :
  let matching :=
    filter (fun r => referrer r =? lower address) (referrals (ledger fs)) in
  referral_status address fs
  = ((StatusBody (length matching)
                 (length (filter paid matching))
                 (length (filter (fun r => negb (paid r)) matching))
                 matching, 200),
     Some (ledger fs))
  /\ length matching = total_for (lower address) (referrals (ledger fs))
  /\ length (filter paid matching)
     + length (filter (fun r => negb (paid r)) matching)
     = length matching
  /\ fst (referral_status address (Some (mkDB active archived)))
     = fst (referral_status address (Some (mkDB active other)))
  /\ fst (referral_status address (snd (mark_paid (Some SECRET_KEY) fs)))
     = (StatusBody 0 0 0 [], 200).
Proof.
  intros matching.
  destruct (paid_split matching) as [Hsub Hle].
  repeat split.
  - unfold referral_status. rewrite load_data_ledger. fold matching.
    now rewrite Hsub.
  - rewrite <- Hsub. lia.
  - rewrite (mark_paid_ok _ fs key_matches_secret). reflexivity.
Qed.

(** ** Invariants of the reachable files *)

Lemma referee_count_existsb (e : string) (l : list Referral) :
  existsb (fun item => referee item =? e) l
  = negb (referee_count e l =? 0)%nat.
Proof.
  unfold referee_count. induction l as [|x l IH]; simpl; [reflexivity|].
  destruct (referee x =? e); simpl; [reflexivity | exact IH].
Qed.

(** A request adds at most one record with a given referee, and none when
    an active record has that referee already. *)
Lemma appended_referee (e : string) (rq : Request) (fs : Store) :
  e <> "" ->
  referee_count e (referrals (ledger fs) ++ appended rq fs)
  <= Nat.max 1 (referee_count e (referrals (ledger fs))).
Proof.
  intros He. unfold referee_count. rewrite filter_app, length_app.
  destruct rq as [a|r e' t|a| |k]; cbn [appended];
    try (cbn [filter length]; lia).
  - destruct (_ && _); cbn [filter length referee]; [|lia].
    destruct (String.eqb_spec "" e) as [Heq|_]; [now elim He|].
    cbn [length]. lia.
  - destruct (first_failing _) eqn:Hff; cbn [filter length referee]; [lia|].
    apply attach_checks_pass in Hff.
    destruct Hff as (_ & _ & _ & Hfresh & _).
    destruct (String.eqb_spec (lower e') e) as [<-|_]; cbn [length]; [|lia].
    rewrite referee_count_existsb in Hfresh.
    apply negb_false_iff, Nat.eqb_eq in Hfresh.
    unfold referee_count in Hfresh. rewrite Hfresh. lia.
Qed.

(** I1 on the active records: no referee is in two of them. *)
Lemma referee_unique_run (e : string) (rqs : list Request) :
  e <> "" ->
  forall fs : Store,
    referee_count e (referrals (ledger fs)) <= 1 ->
    referee_count e (referrals (ledger (run rqs fs))) <= 1.
Proof.
  intros He. induction rqs as [|rq rqs IH]; intros fs Hinv; simpl;
    [exact Hinv|].
  apply IH. rewrite handle_referrals.
  destruct (settles rq); [apply Nat.le_0_l|].
  pose proof (appended_referee e rq fs He). lia.
Qed.

(** What holds of every file the server reaches: the active records are
    unpaid, no referrer has more than 200 of them, and no referee is in two
    of them. *)
Lemma reachable_invariants (fs : Store) :
  reachable fs ->
  Forall (fun ref => paid ref = false) (referrals (ledger fs))
  /\ (forall a : string,
         total_for a (referrals (ledger fs)) <= REFERRAL_CAP)
  /\ (forall e : string,
         e <> "" -> referee_count e (referrals (ledger fs)) <= 1).
Proof.
  intros [rqs <-]. split; [|split].
  - apply (active_unpaid_run rqs None). constructor.
  - intros a. apply (cap_invariant a rqs None). apply Nat.le_0_l.
  - intros e He. apply (referee_unique_run e rqs He None). apply Nat.le_0_l.
Qed.

(** ** Lowercasing *)

Lemma lower_ascii_idem (c : ascii) :
  lower_ascii (lower_ascii c) = lower_ascii c.
Proof.
  destruct c as [[] [] [] [] [] [] [] []]; reflexivity.
Qed.

Lemma lower_idem (s : string) : lower (lower s) = lower s.
Proof.
  induction s as [|c s IH]; simpl; [reflexivity|].
  now rewrite lower_ascii_idem, IH.
Qed.






(** X2: the addresses of a request are read without regard to case: the
    lowercased fields give the same response and the same file as the
    fields themselves. *)
Theorem handlers_ignore_case (a r e tok : string) (fs : Store) :
  register_referral (lower a) fs = register_referral a fs
  /\ use_referral (lower r) (lower e) tok fs = use_referral r e tok fs
  /\ referral_status (lower a) fs = referral_status a fs.
Proof.
  unfold register_referral, use_referral, referral_status.
  now rewrite !lower_idem.
Qed.

(** ** What the records of a reachable file look like *)

(** A property of records that the appended records have and that
    [set_paid] keeps holds of both lists of every file reached from a file
    where it holds. *)
Lemma run_records (P : Referral -> Prop) :
  (forall ref, P ref -> P (set_paid ref)) ->
  (forall rq fs, Forall P (appended rq fs)) ->
  forall (rqs : list Request) (fs : Store),
    Forall P (referrals (ledger fs)) ->
    Forall P (paid_referrals (ledger fs)) ->
    Forall P (referrals (ledger (run rqs fs)))
    /\ Forall P (paid_referrals (ledger (run rqs fs))).
Proof.
  intros Hset Happ. induction rqs as [|rq rqs IH]; intros fs Hact Harch;
    simpl; [now split|].
  apply IH.
  - rewrite handle_referrals. destruct (settles rq); [constructor|].
    apply Forall_app. split; [exact Hact | apply Happ].
  - rewrite handle_paid_referrals. destruct (settles rq); [|exact Harch].
    apply Forall_forall. intros x Hx. apply in_map_iff in Hx.
    destruct Hx as [y [<- Hy]]. apply Hset.
    now apply (proj1 (Forall_forall P _) Hact).
Qed.

Lemma valid_nonempty (s : string) :
  is_valid_address s = true -> (s =? "") = false.
Proof. destruct s; [discriminate | reflexivity]. Qed.

Lemma appended_stored_well (rq : Request) (fs : Store) :
  Forall (fun ref => stored_well ref = true) (appended rq fs).
Proof.
  destruct rq as [a|r e t|a| |k]; cbn [appended]; try constructor.
  - destruct (is_valid_address (lower a)) eqn:Hv; [|constructor].
    destruct (negb _); cbn [andb]; constructor; [|constructor].
    unfold stored_well. cbn [referrer referee].
    rewrite Hv, lower_idem, String.eqb_refl. reflexivity.
  - destruct (first_failing _) eqn:Hff; constructor; [|constructor].
    apply attach_checks_pass in Hff. destruct Hff as (Hr & He & _).
    unfold stored_well. cbn [referrer referee].
    rewrite Hr, He, !lower_idem, !String.eqb_refl.
    now rewrite orb_true_r.
Qed.

(** X3: in every file the server reaches, every record, active or
    archived, has a well-formed lowercase referrer and a referee that is
    empty or a well-formed lowercase address. *)
Theorem stored_addresses_well_formed (rqs : list Request) :
  Forall (fun ref => stored_well ref = true)
         (referrals (ledger (run rqs None)))
  /\ Forall (fun ref => stored_well ref = true)
            (paid_referrals (ledger (run rqs None))).
Proof.
  apply (run_records (fun ref => stored_well ref = true)).
  - intros ref H. exact H.
  - apply appended_stored_well.
  - constructor.
  - constructor.
Qed.

Lemma archived_paid_run (rqs : list Request) :
  forall fs : Store,
    Forall (fun ref => paid ref = true) (paid_referrals (ledger fs)) ->
    Forall (fun ref => paid ref = true)
           (paid_referrals (ledger (run rqs fs))).
Proof.
  induction rqs as [|rq rqs IH]; intros fs Hinv; simpl; [exact Hinv|].
  apply IH. rewrite handle_paid_referrals.
  destruct (settles rq); [|exact Hinv].
  apply Forall_forall. intros x Hx. apply in_map_iff in Hx.
  now destruct Hx as [y [<- _]].
Qed.

(** X4: in every file the server reaches, the active records are unpaid
    and the archived records are paid, so no record is in both lists. *)
Theorem active_unpaid_archived_paid (rqs : list Request) :
  Forall (fun ref => paid ref = false) (referrals (ledger (run rqs None)))
  /\ Forall (fun ref => paid ref = true)
            (paid_referrals (ledger (run rqs None)))
  /\ (forall ref : Referral,
         In ref (referrals (ledger (run rqs None))) ->
         ~ In ref (paid_referrals (ledger (run rqs None)))).
Proof.
  assert (Hact := active_unpaid_run rqs None (Forall_nil _)).
  assert (Harch := archived_paid_run rqs None (Forall_nil _)).
  split; [exact Hact|]. split; [exact Harch|].
  intros ref Hin1 Hin2.
  apply (proj1 (Forall_forall _ _) Hact) in Hin1.
  apply (proj1 (Forall_forall _ _) Harch) in Hin2.
  congruence.
Qed.

(** X5: in every file the server reaches, a referee is in at most one
    active record. *)
Theorem referee_in_one_active_record (rqs : list Request) (e : string) :
  e <> "" ->
  referee_count e (referrals (ledger (run rqs None))) <= 1.
Proof.
  intros He. apply (referee_unique_run e rqs He None). apply Nat.le_0_l.
Qed.

Lemma referee_in_one_active_record_witness :
  referee_count bob
    (referrals
       (ledger (run [UseReferral alice bob FAUCET_TOKEN;
                     UseReferral carol bob FAUCET_TOKEN;
                     UseReferral bob dave FAUCET_TOKEN] None)))
  <= 1.
Proof.
  apply (referee_in_one_active_record
           [UseReferral alice bob FAUCET_TOKEN;
            UseReferral carol bob FAUCET_TOKEN;
            UseReferral bob dave FAUCET_TOKEN] bob).
  discriminate.
Defined.

Lemma appended_registrations (a : string) (rq : Request) (fs : Store) :
  length (registrations a (referrals (ledger fs) ++ appended rq fs))
  <= Nat.max 1 (length (registrations a (referrals (ledger fs)))).
Proof.
  rewrite registrations_app, length_app.
  destruct rq as [a'|r e t|a'| |k]; cbn [appended];
    try (cbn [registrations filter length]; lia).
  - destruct (is_valid_address (lower a')); cbn [andb];
      [|cbn [registrations filter length]; lia].
    destruct (existsb _ _) eqn:Hex; cbn [negb];
      [cbn [registrations filter length]; lia|].
    unfold registrations at 2. cbn [filter referrer referee].
    destruct (String.eqb_spec (lower a') a) as [<-|_]; cbn [andb length];
      [|lia].
    rewrite total_for_pos_existsb in Hex.
    apply negb_false_iff, Nat.eqb_eq in Hex.
    rewrite (registrations_unknown _ _ Hex). cbn [length].
    destruct ("" =? "") eqn:Hemp; cbn [length]; lia.
  - destruct (first_failing _) eqn:Hff;
      [cbn [registrations filter length]; lia|].
    apply attach_checks_pass in Hff. destruct Hff as (_ & He & _).
    unfold registrations at 2. cbn [filter referrer referee].
    rewrite (valid_nonempty _ He), andb_false_r. cbn [length]. lia.
Qed.

Lemma registrations_run (a : string) (rqs : list Request) :
  forall fs : Store,
    length (registrations a (referrals (ledger fs))) <= 1 ->
    length (registrations a (referrals (ledger (run rqs fs)))) <= 1.
Proof.
  induction rqs as [|rq rqs IH]; intros fs Hinv; simpl; [exact Hinv|].
  apply IH. rewrite handle_referrals.
  destruct (settles rq); [apply Nat.le_0_l|].
  pose proof (appended_registrations a rq fs). lia.
Qed.

(** X6: in every file the server reaches, a referrer has at most one
    active record with an empty referee. *)
Theorem one_registration_per_referrer (rqs : list Request) (a : string) :
  length (registrations a (referrals (ledger (run rqs None)))) <= 1.
Proof. apply (registrations_run a rqs None). apply Nat.le_0_l. Qed.

(** ** Refused requests *)

Lemma key_matches_iff (k : option string) :
  key_matches k = true <-> k = Some SECRET_KEY.
Proof.
  destruct k as [s|]; simpl.
  - rewrite String.eqb_eq. split; [now intros -> | now intros [= ->]].
  - split; discriminate.
Qed.

(** X7: [mark_paid] goes through exactly when the header is present and
    equal to the secret key; with a wrong key or without the header it
    answers 401 and leaves the file as it is, without even creating it. *)
Theorem mark_paid_needs_the_key (k : option string) (fs : Store) :
  (is_ok (fst (mark_paid k fs)) = true <-> k = Some SECRET_KEY)
  /\ (k <> Some SECRET_KEY -> mark_paid k fs = (NotAuthorized, fs))
  /\ mark_paid None fs = (NotAuthorized, fs).
Proof.
  rewrite <- key_matches_iff. split; [|split].
  - destruct (key_matches k) eqn:Hk.
    + rewrite mark_paid_ok by exact Hk. now split.
    + rewrite mark_paid_denied by exact Hk. split; discriminate.
  - intros Hk. apply mark_paid_denied. now destruct (key_matches k).
  - reflexivity.
Qed.

(** X8: a request that is not answered with 200 leaves the file exactly as
    it was. *)
Theorem rejected_request_leaves_file (rq : Request) (fs : Store) :
  is_ok (fst (handle rq fs)) = false -> snd (handle rq fs) = fs.
Proof.
  destruct rq as [a|r e t|a| |k]; cbn [handle].
  - destruct (is_valid_address (lower a)) eqn:Hv.
    + rewrite register_referral_valid by exact Hv. discriminate.
    + now rewrite register_referral_invalid.
  - rewrite use_referral_checks.
    destruct (first_failing _); [reflexivity | discriminate].
  - unfold referral_status. rewrite load_data_ledger. discriminate.
  - unfold payout_list. rewrite load_data_ledger. discriminate.
  - destruct (key_matches k) eqn:Hk.
    + rewrite mark_paid_ok by exact Hk. discriminate.
    + now rewrite mark_paid_denied.
Qed.

Lemma rejected_request_leaves_file_witness :
  snd (handle (UseReferral alice bob "WRONG") attached_only) = attached_only.
Proof.
  apply (rejected_request_leaves_file (UseReferral alice bob "WRONG")
                                      attached_only).
  reflexivity.
Defined.

(** ** The payout list *)

Lemma payout_list_unpaid (fs : Store) :
  payout_list fs =
  ((PayoutBody
      (2 * length (filter (fun r => negb (paid r)) (referrals (ledger fs))))
      (10 * length (filter (fun r => negb (paid r)) (referrals (ledger fs))))
      (flat_map entries_of
         (filter (fun r => negb (paid r)) (referrals (ledger fs)))), 200),
   Some (ledger fs)).
Proof.
  unfold payout_list. rewrite load_data_ledger.
  rewrite multisend_sum, multisend_length, multisend_flat_map.
  set (n := length (filter _ _)).
  replace (5 * (2 * n)) with (10 * n) by lia. reflexivity.
Qed.

(** X9: whatever the file holds, [payout_list] lists the active records
    whose [paid] is false and no other: two people and ten units for each
    of them, a referrer entry followed by a referee entry. *)
Theorem payout_list_counts_unpaid (fs : Store) :
  let unpaid := filter (fun r => negb (paid r)) (referrals (ledger fs)) in
  payout_list fs =
  ((PayoutBody (2 * length unpaid) (10 * length unpaid)
               (flat_map entries_of unpaid), 200),
   Some (ledger fs)).
Proof. apply payout_list_unpaid. Qed.

(** X10: right after a settlement the payout list is empty, and a second
    settlement leaves a ledger with no record at all. *)
Theorem after_settlement (fs : Store) :
  let settled := snd (mark_paid (Some SECRET_KEY) fs) in
  fst (payout_list settled) = (PayoutBody 0 0 [], 200)
  /\ snd (mark_paid (Some SECRET_KEY) settled) = Some empty_db
  /\ run [MarkPaid (Some SECRET_KEY); MarkPaid (Some SECRET_KEY)] fs
     = Some empty_db.
Proof.
  cbn zeta. cbn [run handle].
  rewrite (mark_paid_ok _ fs key_matches_secret). cbn [snd].
  rewrite (mark_paid_ok _ _ key_matches_secret).
  rewrite payout_list_unpaid, ledger_some. cbn [referrals]. simpl.
  repeat split.
Qed.

Lemma entries_of_settled (l : list Referral) :
  flat_map entries_of l
  = map (fun w => mkEntry w 5)
        (flat_map (fun ref => [referrer ref; referee ref])
                  (map set_paid l)).
Proof.
  induction l as [|x l IH]; simpl; [reflexivity | now rewrite IH].
Qed.

(** X11: in a file whose active records are unpaid, the wallets of the
    payout list are, in order, the referrers and referees of the records
    a settlement archives. *)
Theorem settlement_archives_payout (fs : Store) :
  Forall (fun ref => paid ref = false) (referrals (ledger fs)) ->
  let archived :=
    paid_referrals (ledger (snd (mark_paid (Some SECRET_KEY) fs))) in
  fst (payout_list fs)
  = (PayoutBody (2 * length archived) (10 * length archived)
       (map (fun w => mkEntry w 5)
            (flat_map (fun ref => [referrer ref; referee ref]) archived)),
     200).
Proof.
  intros Hunpaid archived.
  assert (Harch : archived = map set_paid (referrals (ledger fs))).
  { unfold archived. now rewrite (mark_paid_ok _ fs key_matches_secret). }
  rewrite payout_list_unpaid, (filter_unpaid _ Hunpaid), Harch.
  rewrite length_map. cbn [fst]. now rewrite entries_of_settled.
Qed.

Lemma settlement_archives_payout_witness :
  fst (payout_list registered_and_attached)
  = (PayoutBody 4 20
       (map (fun w => mkEntry w 5) [alice_l; ""; alice_l; bob]), 200).
Proof.
  assert (Hunpaid : Forall (fun ref => paid ref = false)
                           (referrals (ledger registered_and_attached)))
    by (vm_compute; repeat constructor).
  rewrite (settlement_archives_payout registered_and_attached Hunpaid).
  reflexivity.
Defined.

(** ** Status, attaches and registrations *)

Lemma filter_paid_unpaid (l : list Referral) :
  Forall (fun ref => paid ref = false) l -> filter paid l = [].
Proof.
  induction 1 as [|x l Hx _ IH]; simpl; [reflexivity | now rewrite Hx].
Qed.

Lemma Forall_filter {A : Type} (P : A -> Prop) (f : A -> bool)
  (l : list A) : Forall P l -> Forall P (filter f l).
Proof.
  intros H. apply Forall_forall. intros x Hx. apply filter_In in Hx.
  now apply (proj1 (Forall_forall P l) H).
Qed.

(** X12: in every file the server reaches, [referral_status] reports no
    paid referral: the paid count is 0, the unpaid count is the total, and
    the total is at most 200. *)
Theorem status_reports_no_paid (rqs : list Request) (address : string) :
  let matching :=
    filter (fun r => referrer r =? lower address)
           (referrals (ledger (run rqs None))) in
  fst (referral_status address (run rqs None))
  = (StatusBody (length matching) 0 (length matching) matching, 200)
  /\ length matching <= 200.
Proof.
  intros matching. split.
  - unfold referral_status. rewrite load_data_ledger. fold matching.
    assert (Hunpaid : Forall (fun ref => paid ref = false) matching).
    { apply Forall_filter. apply (active_unpaid_run rqs None). constructor. }
    rewrite (filter_paid_unpaid _ Hunpaid). cbn [length fst].
    now rewrite Nat.sub_0_r.
  - apply (cap_invariant (lower address) rqs None). apply Nat.le_0_l.
Qed.

(** X13: a [use_referral] that is answered with 200 appends one unpaid
    record with the lowercased addresses and touches nothing else: the
    referrer's count grows by one and the payout list by the two entries
    of the new record. *)
Theorem attach_adds_one_record (r e tok : string) (fs : Store) :
  is_ok (fst (use_referral r e tok fs)) = true ->
  let fs' := snd (use_referral r e tok fs) in
  let unpaid := filter (fun x => negb (paid x)) (referrals (ledger fs)) in
  referrals (ledger fs')
  = referrals (ledger fs) ++ [mkReferral (lower r) (lower e) false]
  /\ paid_referrals (ledger fs') = paid_referrals (ledger fs)
  /\ total_for (lower r) (referrals (ledger fs'))
     = S (total_for (lower r) (referrals (ledger fs)))
  /\ fst (payout_list fs')
     = (PayoutBody (2 * length unpaid + 2) (10 * length unpaid + 10)
          (flat_map entries_of unpaid
           ++ [mkEntry (lower r) 5; mkEntry (lower e) 5]), 200).
Proof.
  intros Hok fs' unpaid.
  rewrite use_referral_ok in Hok.
  assert (Hfs' : fs' = Some (set_referrals
                              (referrals (ledger fs)
                               ++ [mkReferral (lower r) (lower e) false])
                              (ledger fs))).
  { unfold fs'. rewrite use_referral_checks.
    now destruct (first_failing _). }
  rewrite payout_list_unpaid, Hfs', ledger_some.
  cbn [set_referrals referrals paid_referrals fst].
  split; [reflexivity|]. split; [reflexivity|]. split.
  - rewrite total_for_app. unfold total_for at 2. simpl.
    rewrite String.eqb_refl. simpl. lia.
  - rewrite filter_app. fold unpaid. cbn [filter paid negb].
    rewrite length_app, flat_map_app. cbn [length flat_map entries_of app].
    cbn [referrer referee].
    replace (2 * (length unpaid + 1)) with (2 * length unpaid + 2) by lia.
    replace (10 * (length unpaid + 1)) with (10 * length unpaid + 10) by lia.
    reflexivity.
Qed.

Lemma attach_adds_one_record_witness :
  referrals (ledger (snd (use_referral alice bob FAUCET_TOKEN
                            alice_registered)))
  = [mkReferral alice_l "" false; mkReferral alice_l bob false].
Proof.
  assert (Hok : is_ok (fst (use_referral alice bob FAUCET_TOKEN
                              alice_registered)) = true)
    by reflexivity.
  destruct (attach_adds_one_record alice bob FAUCET_TOKEN alice_registered
              Hok) as [Hrefs _].
  rewrite Hrefs. reflexivity.
Defined.

Lemma active_grows_run (rqs : list Request) :
  forall fs : Store,
    no_settlement rqs = true ->
    exists extra : list Referral,
      referrals (ledger (run rqs fs)) = referrals (ledger fs) ++ extra
      /\ Forall (fun ref => paid ref = false) extra
      /\ paid_referrals (ledger (run rqs fs)) = paid_referrals (ledger fs).
Proof.
  induction rqs as [|rq rqs IH]; intros fs Hns.
  - exists []. simpl. rewrite app_nil_r. repeat split. constructor.
  - apply no_settlement_cons in Hns. destruct Hns as [Hs Hns].
    destruct (IH (snd (handle rq fs)) Hns) as (extra & Hrefs & Hun & Harch).
    exists (appended rq fs ++ extra). cbn [run].
    rewrite Hrefs, Harch, handle_referrals, handle_paid_referrals, Hs.
    rewrite app_assoc. repeat split.
    apply Forall_app. split; [apply appended_unpaid | exact Hun].
Qed.

(** X14: as long as no settlement goes through, the active records only
    grow at the end, by unpaid records, and the archive stays as it is: no
    request removes, reorders or rewrites an active record. *)
Theorem active_grows_between_settlements
  (rqs : list Request) (fs : Store) :
  no_settlement rqs = true ->
  exists extra : list Referral,
    referrals (ledger (run rqs fs)) = referrals (ledger fs) ++ extra
    /\ Forall (fun ref => paid ref = false) extra
    /\ paid_referrals (ledger (run rqs fs)) = paid_referrals (ledger fs).
Proof. apply active_grows_run. Qed.

Lemma active_grows_between_settlements_witness :
  exists extra : list Referral,
    referrals
      (ledger (run [RegisterReferral carol; MarkPaid None;
                    UseReferral carol dave FAUCET_TOKEN; PayoutList]
                   one_archived_one_active))
    = referrals (ledger one_archived_one_active) ++ extra
    /\ Forall (fun ref => paid ref = false) extra
    /\ paid_referrals
         (ledger (run [RegisterReferral carol; MarkPaid None;
                       UseReferral carol dave FAUCET_TOKEN; PayoutList]
                      one_archived_one_active))
       = paid_referrals (ledger one_archived_one_active).
Proof.
  apply (active_grows_between_settlements
           [RegisterReferral carol; MarkPaid None;
            UseReferral carol dave FAUCET_TOKEN; PayoutList]
           one_archived_one_active).
  reflexivity.
Defined.

(** X15: registering a well-formed address brings that referrer's count
    to one when it was zero and changes no count otherwise, neither that
    referrer's nor any other's. *)
Theorem register_referral_counts (a b : string) (fs : Store) :
  is_valid_address (lower a) = true ->
  total_for b (referrals (ledger (snd (register_referral a fs))))
  = (if (b =? lower a)
        && (total_for b (referrals (ledger fs)) =? 0)%nat
     then 1 else total_for b (referrals (ledger fs))).
Proof.
  intros Hv. rewrite register_referral_valid by exact Hv.
  cbn [snd]. rewrite ledger_some, total_for_pos_existsb.
  destruct (String.eqb_spec b (lower a)) as [->|Hneq]; cbn [andb].
  - destruct (total_for (lower a) (referrals (ledger fs)) =? 0)%nat eqn:Hz;
      cbn [negb]; [|reflexivity].
    apply Nat.eqb_eq in Hz.
    cbn [set_referrals referrals]. rewrite total_for_app, Hz.
    unfold total_for. simpl. now rewrite String.eqb_refl.
  - destruct (negb _); [reflexivity|].
    cbn [set_referrals referrals]. rewrite total_for_app.
    unfold total_for at 2. simpl.
    destruct (String.eqb_spec (lower a) b) as [Heq|_];
      [now elim Hneq | simpl; lia].
Qed.

Lemma register_referral_counts_witness :
  total_for alice_l (referrals (ledger (snd (register_referral alice None))))
  = 1.
Proof.
  apply (register_referral_counts alice alice_l None). reflexivity.
Defined.

(** ** The daily backup *)

Lemma append_length (a b : string) :
  String.length (a ++ b)%string = String.length a + String.length b.
Proof. induction a as [|c a IH]; simpl; [reflexivity | now rewrite IH]. Qed.

Lemma append_inv_head (p a b : string) :
  (p ++ a)%string = (p ++ b)%string -> a = b.
Proof.
  induction p as [|c p IH]; simpl; [easy|]. intros [= H]. now apply IH.
Qed.

Lemma append_inv_tail (s : string) :
  forall a b : string, (a ++ s)%string = (b ++ s)%string -> a = b.
Proof.
  induction a as [|c a IH]; intros [|c' b] H.
  - reflexivity.
  - apply (f_equal String.length) in H. simpl in H.
    rewrite append_length in H. lia.
  - apply (f_equal String.length) in H. simpl in H.
    rewrite append_length in H. lia.
  - simpl in H. injection H as -> H. f_equal. now apply IH.
Qed.

(** Different clock readings give different backup files. *)
Lemma backup_path_inj (t1 t2 : string) :
  backup_path t1 = backup_path t2 -> t1 = t2.
Proof.
  unfold backup_path. intros H.
  apply append_inv_head in H. apply append_inv_head in H.
  apply append_inv_head in H. now apply append_inv_tail in H.
Qed.

(** X16: [backup_json_file] writes the ledger of the data file, as
    [load_data] reads it, under the path of the clock reading, keeps the
    ledger of the data file and the backups of every other clock reading,
    and replaces a backup taken at the same clock reading. *)
Theorem backup_is_a_snapshot
  (timestamp other : string) (fs : Store) (bk : Folder) :
  let after := backup_json_file timestamp fs bk in
  ledger (fst after) = ledger fs
  /\ fst after = Some (ledger fs)
  /\ read_backup (snd after) (backup_path timestamp) = Some (ledger fs)
  /\ read_backup (snd after) (backup_path other)
     = (if other =? timestamp then Some (ledger fs)
        else read_backup bk (backup_path other)).
Proof.
  unfold backup_json_file. rewrite load_data_ledger.
  cbn [fst snd read_backup]. unfold write_file.
  rewrite String.eqb_refl. repeat split.
  destruct (String.eqb_spec other timestamp) as [->|Hneq].
  - now rewrite String.eqb_refl.
  - destruct (String.eqb_spec (backup_path other) (backup_path timestamp))
      as [Heq|_]; [now apply backup_path_inj in Heq|].
    now destruct bk.
Qed.

(** ** What the checks of [use_referral] let through *)

Lemma use_referral_passes (r e : string) (fs : Store) :
  is_valid_address (lower r) = true ->
  is_valid_address (lower e) = true ->
  existsb (fun item => referee item =? lower e) (referrals (ledger fs))
  = false ->
  total_for (lower r) (referrals (ledger fs)) < REFERRAL_CAP ->
  use_referral r e FAUCET_TOKEN fs
  = ((Message "Indicação registrada!", 200),
     Some (set_referrals
             (referrals (ledger fs)
              ++ [mkReferral (lower r) (lower e) false])
             (ledger fs))).
Proof.
  intros Hr He Hfresh Hcap. rewrite use_referral_checks.
  assert (Hpass : first_failing
            (attach_checks (lower r) (lower e) FAUCET_TOKEN (ledger fs))
          = None) by (apply attach_checks_pass; auto).
  now rewrite Hpass.
Qed.

(** X17: a settlement resets both the duplicate check and the cap: in the
    file it leaves, every request with two well-formed addresses and the
    right token is accepted, whoever was referred or had 200 records
    before. *)
Theorem settlement_resets_checks (r e : string) (fs : Store) :
  is_valid_address (lower r) = true ->
  is_valid_address (lower e) = true ->
  let settled := snd (mark_paid (Some SECRET_KEY) fs) in
  is_ok (fst (use_referral r e FAUCET_TOKEN settled)) = true
  /\ referrals (ledger (snd (use_referral r e FAUCET_TOKEN settled)))
     = [mkReferral (lower r) (lower e) false].
Proof.
  intros Hr He settled.
  assert (Hsettled : referrals (ledger settled) = []).
  { unfold settled. now rewrite (mark_paid_ok _ fs key_matches_secret). }
  rewrite (use_referral_passes r e settled Hr He).
  - split; [reflexivity|]. cbn [snd]. rewrite ledger_some.
    cbn [set_referrals referrals]. now rewrite Hsettled.
  - now rewrite Hsettled.
  - rewrite Hsettled. unfold total_for, REFERRAL_CAP. simpl. lia.
Qed.

Lemma settlement_resets_checks_witness :
  is_ok (fst (use_referral alice (sample_address 7) FAUCET_TOKEN
                (snd (mark_paid (Some SECRET_KEY)
                        (run (attach_many alice 200) None)))))
  = true
  /\ referrals
       (ledger (snd (use_referral alice (sample_address 7) FAUCET_TOKEN
                       (snd (mark_paid (Some SECRET_KEY)
                               (run (attach_many alice 200) None))))))
     = [mkReferral (lower alice) (lower (sample_address 7)) false].
Proof.
  apply (settlement_resets_checks alice (sample_address 7)
           (run (attach_many alice 200) None)); reflexivity.
Defined.

(** X18: [use_referral] does not compare the two addresses: a wallet that
    is nobody's referee yet is accepted as its own referee, and the payout
    list then carries that wallet twice. *)
Theorem self_referral_accepted (a : string) (fs : Store) :
  is_valid_address (lower a) = true ->
  existsb (fun item => referee item =? lower a) (referrals (ledger fs))
  = false ->
  total_for (lower a) (referrals (ledger fs)) < 200 ->
  let fs' := snd (use_referral a a FAUCET_TOKEN fs) in
  is_ok (fst (use_referral a a FAUCET_TOKEN fs)) = true
  /\ referrals (ledger fs')
     = referrals (ledger fs) ++ [mkReferral (lower a) (lower a) false]
  /\ exists before,
       fst (payout_list fs')
       = (PayoutBody (length before + 2) (5 * (length before + 2))
            (before ++ [mkEntry (lower a) 5; mkEntry (lower a) 5]), 200).
Proof.
  intros Hv Hfresh Hcap fs'.
  assert (Heq := use_referral_passes a a fs Hv Hv Hfresh Hcap).
  unfold fs'. rewrite Heq. cbn [fst snd]. rewrite ledger_some.
  cbn [set_referrals referrals].
  split; [reflexivity|]. split; [reflexivity|].
  exists (flat_map entries_of
            (filter (fun x => negb (paid x)) (referrals (ledger fs)))).
  rewrite payout_list_unpaid, ledger_some.
  cbn [set_referrals referrals fst].
  rewrite filter_app, flat_map_app, length_app.
  cbn [filter paid negb flat_map entries_of app length referrer referee].
  rewrite length_flat_map.
  set (l := filter _ (referrals (ledger fs))).
  assert (Hlen : list_sum (map (fun x => length (entries_of x)) l)
                 = 2 * length l).
  { induction l as [|x l IH]; simpl; [reflexivity|]. simpl in IH. lia. }
  rewrite Hlen.
  replace (2 * (length l + 1)) with (2 * length l + 2) by lia.
  replace (10 * (length l + 1)) with (5 * (2 * length l + 2)) by lia.
  reflexivity.
Qed.

Lemma self_referral_accepted_witness :
  is_ok (fst (use_referral alice alice FAUCET_TOKEN None)) = true
  /\ referrals (ledger (snd (use_referral alice alice FAUCET_TOKEN None)))
     = [] ++ [mkReferral (lower alice) (lower alice) false]
  /\ exists before,
       fst (payout_list (snd (use_referral alice alice FAUCET_TOKEN None)))
       = (PayoutBody (length before + 2) (5 * (length before + 2))
            (before ++ [mkEntry (lower alice) 5; mkEntry (lower alice) 5]),
          200).
Proof.
  apply (self_referral_accepted alice None).
  - reflexivity.
  - reflexivity.
  - vm_compute. lia.
Defined.
